(** * Commit selection on the repository page of the Flat viewer

    Shallow embedding of [src/components/repo-detail.tsx]: the [selectedSha]
    state cell of [RepoDetail], the effect that mirrors it into the URL, the
    [onSuccess] callback handed to [useCommits], and the computation of
    [selectedShaPrevious].

    The component keeps the identifier requested through the URL and the
    current selection in one and the same cell: [selectedSha] is initialised
    from the [sha] query parameter and overwritten by [setSelectedSha].

    An event is followed by a render: the body of the function runs first,
    with lines 91-93 that throw when the selection is the last commit of
    the list, and the effect runs only after a body that returned.

    The second half covers the rest of the component: the first render, the
    picker's [onChange], sessions of arriving lists and picks, [parsedCommit]
    and what the render shows. *)

From Stdlib Require Import ZArith.
From stdpp Require Import base strings list gmap.

Local Open Scope string_scope.
Local Open Scope list_scope.

Module RepoDetail.

(** ** Data *)

(** A value of a parsed query string, as [qs.parse] produces them:
    a string, an array of strings (a repeated parameter) or [null]
    (a parameter without [=]). An absent parameter is [undefined],
    here: no entry in the map. *)
Inductive qvalue : Type :=
  | QString (s : string)
  | QArray (l : list string)
  | QNull.

(** [history.location.search] is kept as the parameter map that [qs.parse]
    reads off it; [qs.stringify] builds such a map from an object literal. *)
Abbreviation query := (gmap string qvalue).

(** The fields of a fetched commit that the component reads:
    [commit.sha] and [commit.commit.message]. *)
Record Commit : Type := {
  sha : string;
  message : string;
}.

(** What the component can observe and change: its state cell, the
    location of the router history, the calls of [history.push] and the
    calls of [toast.error], both oldest first. *)
Record World : Type := {
  selectedSha : string;
  location_search : query;
  history_pushes : list query;
  toasts : list string;
}.

Inductive exn : Type :=
  | TypeError.

Inductive outcome (A : Type) : Type :=
  | Val (a : A)
  | Throw (e : exn).
Arguments Val {A} a.
Arguments Throw {A} e.

(** ** Effects: a state monad in which an exception keeps the state *)

Definition M (A : Type) : Type := World → outcome A * World.

#[global] Instance M_ret : MRet M := λ A a w, (Val a, w).

#[global] Instance M_bind : MBind M := λ A B f c w,
  match c w with
  | (Val a, w') => f a w'
  | (Throw e, w') => (Throw e, w')
  end.

Definition getSelectedSha : M string := λ w, (Val (selectedSha w), w).

Definition setSelectedSha (v : string) : M unit := λ w,
  (Val (), {| selectedSha := v;
              location_search := location_search w;
              history_pushes := history_pushes w;
              toasts := toasts w |}).

Definition history_location_search : M query := λ w,
  (Val (location_search w), w).

(** [history.push({ search })]: the location becomes [search] and one more
    entry is pushed. *)
Definition history_push (search : query) : M unit := λ w,
  (Val (), {| selectedSha := selectedSha w;
              location_search := search;
              history_pushes := history_pushes w ++ [search];
              toasts := toasts w |}).

Definition toast_error (msg : string) : M unit := λ w,
  (Val (), {| selectedSha := selectedSha w;
              location_search := location_search w;
              history_pushes := history_pushes w;
              toasts := toasts w ++ [msg] |}).

(** ** JavaScript primitives *)

(** Truthiness of a string: every string but the empty one. *)
Definition truthy (s : string) : bool := negb (String.eqb s "").

(** [a[i]] for a number [i]: [undefined] outside of the array. *)
Definition array_get {A : Type} (a : list A) (i : Z) : option A :=
  if (i <? 0)%Z then None else a !! Z.to_nat i.

(** [x.sha] where [x] may be [undefined]: reading a property of
    [undefined] throws a TypeError. *)
Definition get_sha (x : option Commit) : outcome string :=
  match x with
  | Some c => Val (sha c)
  | None => Throw TypeError
  end.

Definition lift {A : Type} (o : outcome A) : M A := λ w, (o, w).

(** [a.some(p)] *)
Definition some {A : Type} (p : A → bool) (a : list A) : bool := existsb p a.

Fixpoint findIndex_from {A : Type} (p : A → bool) (a : list A) (i : Z) : Z :=
  match a with
  | [] => -1
  | x :: a' => if p x then i else findIndex_from p a' (i + 1)
  end.

(** [a.findIndex(p)]: the first index whose element satisfies [p], or -1. *)
Definition findIndex {A : Type} (p : A → bool) (a : list A) : Z :=
  findIndex_from p a 0.

(** [qs.stringify(obj)]: the keys whose value is [undefined] are left out. *)
Definition qs_stringify (obj : list (string * option qvalue)) : query :=
  foldr (λ kv q, match kv.2 with
                 | Some v => <[kv.1 := v]> q
                 | None => q
                 end) ∅ obj.

(** ** The component *)

(** Initial value of the state cell,
    [(parsedQueryString?.sha as string) || ""]. An array-valued [sha] is
    outside of the declared type [string] of the cell. *)
Definition initialSelectedSha (parsedQueryString : query) : option string :=
  match parsedQueryString !! "sha" with
  | Some (QString s) => Some s
  | Some (QArray _) => None
  | Some QNull => Some ""
  | None => Some ""
  end.

(** The effect with dependency [selectedSha] (lines 35-42). *)
Definition selectedShaEffect (selectedSha : string) : M unit :=
  if truthy selectedSha then
    currentQueryString ← history_location_search;
    history_push
      (qs_stringify [("sha", Some (QString selectedSha));
                     ("key", currentQueryString !! "key")])
  else mret ().

Definition not_found_message : string :=
  "Hmm, we couldn't find a commit by that SHA. Reverting to the most recent commit.".

(** The [onSuccess] callback of [useCommits] (lines 53-77); [selectedSha]
    is the value of the cell in the render that created the callback. *)
Definition onSuccess (selectedSha : string) (commits : list Commit) : M unit :=
  mostRecentCommitSha ← lift (get_sha (array_get commits 0));
  if (0 <? Z.of_nat (length commits))%Z then
    if truthy selectedSha then
      if some (λ commit, String.eqb (sha commit) selectedSha) commits then
        mret ()
      else
        toast_error not_found_message;;
        history_push (qs_stringify [("sha", Some (QString mostRecentCommitSha))]);;
        setSelectedSha mostRecentCommitSha
    else
      setSelectedSha mostRecentCommitSha
  else mret ().

(** [selectedShaPrevious] (lines 91-93). *)
Definition selectedShaPrevious (commits : list Commit) (selectedSha : string)
  : outcome (option string) :=
  let selectedShaIndex :=
    findIndex (λ d, String.eqb (sha d) selectedSha) commits in
  if negb (selectedShaIndex =? -1)%Z then
    match get_sha (array_get commits (selectedShaIndex + 1)) with
    | Val s => Val (Some s)
    | Throw e => Throw e
    end
  else Val None.

(** A render after an event. React first runs the function body with the
    list that [useCommits] gives, of which lines 91-93 can throw, and only
    after a body that returned does it run the effect, when the dependency
    differs from the one of the render before; [previous] is the cell's
    value in that render. A body that throws unmounts the component. *)
Definition rerender (commits : list Commit) (previous : string) : M unit :=
  current ← getSelectedSha;
  lift (selectedShaPrevious commits current);;
  if String.eqb current previous then mret () else selectedShaEffect current.

(** One reconciliation pass: the fetched list arrives, [onSuccess] of the
    latest render runs, and the component renders with the arrived list. *)
Definition reconcile (commits : list Commit) : M unit :=
  selectedSha ← getSelectedSha;
  onSuccess selectedSha commits;;
  rerender commits selectedSha.

(** The first render: the cell is initialised from the URL, the body runs
    with the empty list that stands for the data not yet fetched, where
    lines 91-93 give [undefined], and the effect runs once. *)
Definition mount (search : query) : option World :=
  match initialSelectedSha search with
  | Some s =>
      Some (selectedShaEffect s
              {| selectedSha := s; location_search := search;
                 history_pushes := []; toasts := [] |}).2
  | None => None
  end.

(** ** Observations used in the statements *)

(** The identifiers of a commit list. *)
Definition identifiers (commits : list Commit) : list string := sha <$> commits.

(** The world in which a computation ends, normally or by an exception. *)
Definition final {A : Type} (r : outcome A * World) : World := r.2.

(** A write of the persisted state that carries identifier [id]. *)
Definition carries (id : string) (q : query) : Prop :=
  q !! "sha" = Some (QString id).

(** The writes of the persisted state made on the way from [w] to [w']. *)
Definition writes_during (w w' : World) : list query :=
  drop (length (history_pushes w)) (history_pushes w').

(** Whether the body of a render with this list and this cell returns,
    and its outcome without the value. *)
Definition render_returns (commits : list Commit) (selectedSha : string) : bool :=
  match selectedShaPrevious commits selectedSha with
  | Val _ => true
  | Throw _ => false
  end.

Definition rendered (commits : list Commit) (selectedSha : string) : outcome () :=
  match selectedShaPrevious commits selectedSha with
  | Val _ => Val ()
  | Throw e => Throw e
  end.

(** The ways through one reconciliation pass, by the list and the cell it
    starts from: a summary of the branches of [onSuccess] and of the render
    that follows, which [reconcile_pass] below proves of the embedding.
    With the first commit selected, the render of a list of one commit
    throws and the one of a longer list returns. *)
Inductive pass (commits : list Commit) (w : World) : outcome () * World → Prop :=
  | pass_empty :
      commits = [] →
      pass commits w (Throw TypeError, w)
  | pass_noop :
      commits ≠ [] →
      selectedSha w ≠ "" →
      selectedSha w ∈ identifiers commits →
      pass commits w (rendered commits (selectedSha w), w)
  | pass_recovery c second rest :
      commits = c :: second :: rest →
      selectedSha w ≠ "" →
      selectedSha w ∉ identifiers commits →
      pass commits w
        (Val (),
         {| selectedSha := sha c;
            location_search := qs_stringify [("sha", Some (QString (sha c)))];
            history_pushes :=
              history_pushes w
                ++ qs_stringify [("sha", Some (QString (sha c)))]
                :: (if truthy (sha c)
                    then [qs_stringify [("sha", Some (QString (sha c)))]]
                    else []);
            toasts := toasts w ++ [not_found_message] |})
  | pass_recovery_single c :
      commits = [c] →
      selectedSha w ≠ "" →
      selectedSha w ∉ identifiers commits →
      pass commits w
        (Throw TypeError,
         {| selectedSha := sha c;
            location_search := qs_stringify [("sha", Some (QString (sha c)))];
            history_pushes :=
              history_pushes w ++ [qs_stringify [("sha", Some (QString (sha c)))]];
            toasts := toasts w ++ [not_found_message] |})
  | pass_default c second rest :
      commits = c :: second :: rest →
      selectedSha w = "" →
      sha c ≠ "" →
      pass commits w
        (Val (),
         {| selectedSha := sha c;
            location_search :=
              qs_stringify [("sha", Some (QString (sha c)));
                            ("key", location_search w !! "key")];
            history_pushes :=
              history_pushes w
                ++ [qs_stringify [("sha", Some (QString (sha c)));
                                  ("key", location_search w !! "key")]];
            toasts := toasts w |})
  | pass_default_single c :
      commits = [c] →
      selectedSha w = "" →
      sha c ≠ "" →
      pass commits w
        (Throw TypeError,
         {| selectedSha := sha c;
            location_search := location_search w;
            history_pushes := history_pushes w;
            toasts := toasts w |})
  | pass_default_empty c cs :
      commits = c :: cs →
      selectedSha w = "" →
      sha c = "" →
      pass commits w (rendered commits "", w).

(** The index of an identifier in a commit list: the first position whose
    commit has it. *)
Definition index_of (commits : list Commit) (id : string) : option nat :=
  fst <$> list_find (λ commit, sha commit = id) commits.

(** The world after a second pass with the same list, run where the first
    one ended. *)
Definition reconcile_again (commits : list Commit) (w : World) : World :=
  final (reconcile commits (final (reconcile commits w))).

(** ** Example data *)

Definition c1 : Commit := {| sha := "c1"; message := "Flat: latest data" |}.
Definition c2 : Commit := {| sha := "c2"; message := "Flat: latest data" |}.
Definition c3 : Commit := {| sha := "c3"; message := "Flat: latest data" |}.

(** The world after the first render of the page opened without a query
    string. *)
Definition fresh_world : World :=
  {| selectedSha := ""; location_search := ∅;
     history_pushes := []; toasts := [] |}.

(** The world after the first render of the page opened on a link to the
    commit [id]: the effect has written the request back once. *)
Definition linked_world (id : string) : World :=
  {| selectedSha := id;
     location_search := {[ "sha" := QString id ]};
     history_pushes := [ {[ "sha" := QString id ]} ];
     toasts := [] |}.

(** A link to a commit that the fetched list does not have. *)
Definition stale_world : World := linked_world "deadbeef".

(** ** The rest of the render and the picker *)

(** [a.find(p)]: the first element that satisfies [p], or [undefined]. *)
Fixpoint find {A : Type} (p : A → bool) (a : list A) : option A :=
  match a with
  | [] => None
  | x :: a' => if p x then Some x else find p a'
  end.

(** Modelled from the spec: [parseFlatCommitMessage] of [../lib] is not
    under [src/]. It is taken as a parameter: a total function of the
    message, which may be [undefined], to a parsed commit or a falsy value;
    of a parsed commit the render reads [file.name]. *)
Record Lib : Type := {
  Parsed : Type;
  parseFlatCommitMessage : option string → option Parsed;
  file_name : Parsed → string;
}.

(** [parsedCommit] (lines 85-89). *)
Definition parsedCommit (L : Lib) (commits : list Commit) (selectedSha : string)
  : option (Parsed L) :=
  if truthy selectedSha then
    parseFlatCommitMessage L
      (message <$> find (λ commit, String.eqb (sha commit) selectedSha) commits)
  else None.

Module Picker.
(** The properties of [Picker] that depend on the state (lines 129-134). *)
Record Props : Type := {
  value : string;
  items : list string;
}.
End Picker.

Module JSONDetail.
(** The properties of [JSONDetail] (lines 179-187), but for the ref. *)
Record Props : Type := {
  key : string;
  filename : string;
  owner : string;
  name : string;
  previousSha : option string;
  sha : string;
}.
End JSONDetail.

(** What a render shows of the parts that depend on the state: the
    skeleton and the picker of the commit area (lines 120-170), and the
    three panels below it (lines 176-195). *)
Record View : Type := {
  skeleton : bool;
  picker : option Picker.Props;
  loadingState : bool;
  jsonDetail : option JSONDetail.Props;
  errorState : bool;
}.

(** The body of [RepoDetail] from line 85 on. The statuses are the
    strings that the two queries report; [commits] is the data of
    [useCommits], [[]] as long as there is none. In the commit area,
    [yamlQueryStatus === "loading" || (...)] is [true] while the YAML query
    loads, which React renders as nothing. *)
Definition render (L : Lib) (owner name : string)
    (yamlQueryStatus commitQueryStatus : string)
    (commits : list Commit) (selectedSha : string) : outcome View :=
  let parsedCommit := parsedCommit L commits selectedSha in
  match selectedShaPrevious commits selectedSha with
  | Throw e => Throw e
  | Val selectedShaPrevious =>
      Val {|
        skeleton :=
          negb (String.eqb yamlQueryStatus "error")
          && (if String.eqb yamlQueryStatus "loading" then false
              else String.eqb commitQueryStatus "loading");
        picker :=
          if negb (String.eqb yamlQueryStatus "error")
             && String.eqb yamlQueryStatus "success"
             && String.eqb commitQueryStatus "success"
          then Some {| Picker.value := selectedSha;
                       Picker.items := sha <$> commits |}
          else None;
        loadingState := String.eqb yamlQueryStatus "loading";
        jsonDetail :=
          if String.eqb yamlQueryStatus "success" && truthy selectedSha then
            match parsedCommit with
            | Some parsed =>
                Some {| JSONDetail.key := selectedSha;
                        JSONDetail.filename := file_name L parsed;
                        JSONDetail.owner := owner;
                        JSONDetail.name := name;
                        JSONDetail.previousSha := selectedShaPrevious;
                        JSONDetail.sha := selectedSha |}
            | None => None
            end
          else None;
        errorState := String.eqb yamlQueryStatus "error";
      |}
  end.

(** [onChange] of the picker (line 132) is [setSelectedSha]: setting the
    value that the cell has causes no render; another value causes a
    render with the list that is shown. *)
Definition onChange (commits : list Commit) (item : string) : M unit :=
  previous ← getSelectedSha;
  setSelectedSha item;;
  if String.eqb item previous then mret () else rerender commits previous.

(** The events after the first render: the commit list arrives, or the
    user picks an item. *)
Inductive event : Type :=
  | CommitsLoaded (commits : list Commit)
  | ShaPicked (item : string).

(** The page between two events: the world, the data of [useCommits]
    ([[]] before the first arrival) and whether the component is still
    mounted, which it is until the body of a render throws. *)
Record Page : Type := {
  world : World;
  data : list Commit;
  mounted : bool;
}.

(** An unmounted component receives no event. A mounted one handles it,
    and stays mounted if the render with the list and the cell it then has
    returns. An exception of [onSuccess] is raised in the callback of the
    query, not in a render. *)
Definition handle (page : Page) (e : event) : Page :=
  if mounted page then
    match e with
    | CommitsLoaded commits =>
        let w' := final (reconcile commits (world page)) in
        {| world := w'; data := commits;
           mounted := render_returns commits (selectedSha w') |}
    | ShaPicked item =>
        let w' := final (onChange (data page) item (world page)) in
        {| world := w'; data := data page;
           mounted := render_returns (data page) (selectedSha w') |}
    end
  else page.

(** The page after a sequence of events, oldest first, that follows the
    first render. *)
Definition visit (events : list event) (w : World) : Page :=
  foldl handle {| world := w; data := []; mounted := true |} events.

(** The world after a sequence of events. *)
Definition session (events : list event) (w : World) : World :=
  world (visit events w).

(** How many times the commit list arrived. *)
Fixpoint loads (events : list event) : nat :=
  match events with
  | [] => 0
  | CommitsLoaded _ :: events' => S (loads events')
  | ShaPicked _ :: events' => loads events'
  end.

(** The URL agrees with the cell: when a commit is selected, the query has
    the parameter [sha] with the selection and, besides, at most the
    parameter [key]. *)
Definition synced (w : World) : Prop :=
  selectedSha w ≠ "" →
  carries (selectedSha w) (location_search w)
  ∧ dom (location_search w) ⊆ {[ "sha"; "key" ]}.

(** A library for the examples: every message parses, to the message. *)
Definition example_lib : Lib :=
  {| Parsed := string;
     parseFlatCommitMessage := λ m, Some (default "" m);
     file_name := λ parsed, parsed |}.

(** ** Lemmas on the primitives *)

Lemma truthy_true (s : string) : truthy s = true ↔ s ≠ "".
Proof.
  unfold truthy. rewrite negb_true_iff. apply String.eqb_neq.
Qed.

Lemma truthy_false (s : string) : truthy s = false ↔ s = "".
Proof.
  unfold truthy. rewrite negb_false_iff. apply String.eqb_eq.
Qed.

Lemma some_sha (commits : list Commit) (s : string) :
  some (λ commit, String.eqb (sha commit) s) commits = true
  ↔ s ∈ identifiers commits.
Proof.
  unfold some, identifiers. induction commits as [|c cs IH]; simpl.
  - split; [discriminate | intros H; inversion H].
  - rewrite orb_true_iff, IH, elem_of_cons, String.eqb_eq.
    split; intros [H|H]; auto.
Qed.

Lemma some_sha_false (commits : list Commit) (s : string) :
  some (λ commit, String.eqb (sha commit) s) commits = false
  ↔ s ∉ identifiers commits.
Proof.
  rewrite <- some_sha. destruct (some _ commits); split; congruence.
Qed.

Lemma mount_fresh : mount ∅ = Some fresh_world.
Proof. reflexivity. Qed.

Lemma mount_linked (id : string) :
  id ≠ "" → mount {[ "sha" := QString id ]} = Some (linked_world id).
Proof.
  intros Hid. unfold mount, initialSelectedSha.
  rewrite lookup_singleton_eq. unfold selectedShaEffect.
  apply truthy_true in Hid. rewrite Hid.
  unfold mbind, M_bind, history_location_search, history_push. cbn.
  rewrite lookup_singleton_ne by done. by rewrite insert_empty.
Qed.

Lemma world_eta (w : World) :
  {| selectedSha := selectedSha w; location_search := location_search w;
     history_pushes := history_pushes w; toasts := toasts w |} = w.
Proof. by destruct w. Qed.

Lemma array_get_first {A : Type} (x : A) (a : list A) :
  array_get (x :: a) 0 = Some x.
Proof. reflexivity. Qed.

Lemma length_cons_positive {A : Type} (x : A) (a : list A) :
  (0 <? Z.of_nat (length (x :: a)))%Z = true.
Proof. reflexivity. Qed.

(** ** The branches of [onSuccess] *)

Ltac run_onSuccess :=
  unfold onSuccess, mbind, M_bind, lift;
  rewrite ?array_get_first, ?length_cons_positive; cbn [get_sha].

Lemma onSuccess_empty (s : string) (w : World) :
  onSuccess s [] w = (Throw TypeError, w).
Proof. reflexivity. Qed.

Lemma onSuccess_found (s : string) (c : Commit) (cs : list Commit) (w : World) :
  s ≠ "" → s ∈ identifiers (c :: cs) →
  onSuccess s (c :: cs) w = (Val (), w).
Proof.
  intros Hs Hin. run_onSuccess.
  apply truthy_true in Hs. apply some_sha in Hin. by rewrite Hs, Hin.
Qed.

Lemma onSuccess_missing (s : string) (c : Commit) (cs : list Commit) (w : World) :
  s ≠ "" → s ∉ identifiers (c :: cs) →
  onSuccess s (c :: cs) w =
    (Val (),
     {| selectedSha := sha c;
        location_search := qs_stringify [("sha", Some (QString (sha c)))];
        history_pushes :=
          history_pushes w ++ [qs_stringify [("sha", Some (QString (sha c)))]];
        toasts := toasts w ++ [not_found_message] |}).
Proof.
  intros Hs Hin. run_onSuccess.
  apply truthy_true in Hs. apply some_sha_false in Hin. by rewrite Hs, Hin.
Qed.

Lemma onSuccess_unselected (c : Commit) (cs : list Commit) (w : World) :
  onSuccess "" (c :: cs) w =
    (Val (),
     {| selectedSha := sha c;
        location_search := location_search w;
        history_pushes := history_pushes w;
        toasts := toasts w |}).
Proof. by run_onSuccess. Qed.

(** ** The render with the first commit selected *)

Lemma selectedShaPrevious_first_single (c : Commit) :
  selectedShaPrevious [c] (sha c) = Throw TypeError.
Proof.
  unfold selectedShaPrevious, findIndex. cbn [findIndex_from].
  by rewrite String.eqb_refl.
Qed.

Lemma selectedShaPrevious_first (c second : Commit) (rest : list Commit) :
  selectedShaPrevious (c :: second :: rest) (sha c) = Val (Some (sha second)).
Proof.
  unfold selectedShaPrevious, findIndex. cbn [findIndex_from].
  by rewrite String.eqb_refl.
Qed.

Lemma selectedShaPrevious_nil (id : string) :
  selectedShaPrevious [] id = Val None.
Proof. reflexivity. Qed.

(** Every pass goes one of these ways. *)
Lemma reconcile_pass (commits : list Commit) (w : World) :
  pass commits w (reconcile commits w).
Proof.
  destruct commits as [|c cs]; [by constructor|].
  unfold reconcile, rerender, mbind, M_bind, getSelectedSha, lift.
  destruct (decide (selectedSha w = "")) as [He|Hne].
  - rewrite He, onSuccess_unselected. cbn [selectedSha fst snd].
    destruct (String.eqb (sha c) "") eqn:Hc.
    + apply String.eqb_eq in Hc. rewrite Hc, <- He, world_eta.
      generalize (pass_default_empty (c :: cs) w c cs eq_refl He Hc).
      unfold rendered. rewrite He.
      by destruct (selectedShaPrevious (c :: cs) "").
    + unfold selectedShaEffect, truthy, mbind, M_bind, history_push.
      rewrite Hc. apply String.eqb_neq in Hc.
      destruct cs as [|second rest].
      * rewrite selectedShaPrevious_first_single.
        by apply (pass_default_single _ _ c).
      * rewrite selectedShaPrevious_first. cbn.
        by apply (pass_default _ _ c second rest).
  - destruct (decide (selectedSha w ∈ identifiers (c :: cs))) as [Hin|Hout].
    + rewrite onSuccess_found by done. cbn [selectedSha fst snd].
      rewrite String.eqb_refl.
      generalize (pass_noop (c :: cs) w ltac:(done) Hne Hin).
      unfold rendered.
      by destruct (selectedShaPrevious (c :: cs) (selectedSha w)).
    + rewrite onSuccess_missing by done. cbn [selectedSha fst snd].
      assert (String.eqb (sha c) (selectedSha w) = false) as ->.
      { apply String.eqb_neq. intros E. apply Hout. rewrite <- E.
        unfold identifiers. cbn. apply elem_of_cons. by left. }
      destruct cs as [|second rest].
      * rewrite selectedShaPrevious_first_single.
        by apply (pass_recovery_single _ _ c).
      * rewrite selectedShaPrevious_first.
        generalize (pass_recovery _ w c second rest eq_refl Hne Hout).
        unfold selectedShaEffect, mbind, M_bind, history_push.
        destruct (truthy (sha c)) eqn:Hc; cbn; [|done].
        rewrite lookup_insert_ne by done. rewrite lookup_empty.
        by rewrite <- app_assoc.
Qed.

(** ** Lemmas on queries and writes *)

Lemma carries_sha_only (id : string) :
  carries id (qs_stringify [("sha", Some (QString id))]).
Proof. unfold carries. cbn. apply lookup_insert_eq. Qed.

Lemma carries_sha_key (id : string) (key : option qvalue) :
  carries id (qs_stringify [("sha", Some (QString id)); ("key", key)]).
Proof. unfold carries. cbn. apply lookup_insert_eq. Qed.

Lemma writes_during_app (w w' : World) (qs : list query) :
  history_pushes w' = history_pushes w ++ qs → writes_during w w' = qs.
Proof. intros E. unfold writes_during. rewrite E. apply drop_app_length. Qed.

Lemma writes_during_same (w : World) : writes_during w w = [].
Proof.
  apply writes_during_app. symmetry. apply app_nil_r.
Qed.

(** Case analysis on the way a pass went. *)
Ltac by_pass commits w :=
  generalize (reconcile_pass commits w);
  generalize (reconcile commits w);
  let r := fresh "r" in
  let H := fresh "Hpass" in
  intros r H; destruct H; subst; cbn [fst snd final] in *.

Lemma onSuccess_returns (s : string) (commits : list Commit) (w : World) :
  commits ≠ [] → (onSuccess s commits w).1 = Val ().
Proof.
  intros Hne. destruct commits as [|c cs]; [done|].
  destruct (decide (s = "")) as [->|Hs].
  - by rewrite onSuccess_unselected.
  - destruct (decide (s ∈ identifiers (c :: cs))).
    + by rewrite onSuccess_found.
    + by rewrite onSuccess_missing.
Qed.

(** The render and the effect of a pass leave the cell as [onSuccess]
    left it. *)
Lemma reconcile_cell (commits : list Commit) (w : World) :
  selectedSha (final (reconcile commits w))
  = selectedSha (final (onSuccess (selectedSha w) commits w)).
Proof.
  by_pass commits w; try done.
  - destruct commits as [|c cs]; [done|]. by rewrite onSuccess_found.
  - by rewrite onSuccess_missing.
  - by rewrite onSuccess_missing.
  - by rewrite H0, onSuccess_unselected.
  - by rewrite H0, onSuccess_unselected.
  - rewrite H0, onSuccess_unselected. cbn. congruence.
Qed.

(** ** Reconciliation *)

(** C1: for every non-empty commit list and every cell the pass starts
    from (the cell holds the requested identifier at first and the prior
    selection later on), [onSuccess] returns and leaves in the cell the
    identifier of a commit of the list, and that is what the cell holds at
    the end of the pass, however the render that follows ends. *)
Theorem reconcile_selects_listed_commit (commits : list Commit) (w : World) :
  commits ≠ [] →
  (onSuccess (selectedSha w) commits w).1 = Val ()
  ∧ selectedSha (final (onSuccess (selectedSha w) commits w))
      ∈ identifiers commits
  ∧ selectedSha (final (reconcile commits w)) ∈ identifiers commits.
Proof.
  intros Hne. split; [by apply onSuccess_returns|].
  rewrite <- reconcile_cell. apply and_wlog_r; [|done].
  by_pass commits w; try done.
  all: unfold identifiers; cbn; apply elem_of_cons; left; congruence.
Qed.

Lemma reconcile_selects_listed_commit_witness :
  [c1; c2; c3] ≠ []
  ∧ (onSuccess (selectedSha stale_world) [c1; c2; c3] stale_world).1 = Val ()
  ∧ selectedSha (final (onSuccess (selectedSha stale_world) [c1; c2; c3] stale_world))
      ∈ identifiers [c1; c2; c3]
  ∧ selectedSha (final (reconcile [c1; c2; c3] stale_world))
      ∈ identifiers [c1; c2; c3].
Proof.
  split; [discriminate|].
  apply (reconcile_selects_listed_commit [c1; c2; c3] stale_world).
  discriminate.
Defined.

(** C3, where the code departs from it: against the empty commit list the
    pass throws, whatever the cell holds: [commits[0].sha] is read before
    the test of [commits.length]. The world is left as it was. *)
Theorem reconcile_empty_list_throws (w : World) :
  reconcile [] w = (Throw TypeError, w).
Proof. reflexivity. Qed.

(** C4: for a non-empty commit list and a non-empty requested identifier
    that no commit of the list has, [onSuccess] returns, the first commit
    is selected, exactly one warning is shown, and the persisted state then
    carries the new selection, as does every write of the pass. *)
Theorem reconcile_recovers_from_missing_request
    (commits : list Commit) (requestedId : string) (w : World) :
  commits ≠ [] →
  requestedId ≠ "" →
  requestedId ∉ identifiers commits →
  selectedSha w = requestedId →
  ∃ mostRecent,
    head commits = Some mostRecent
    ∧ (onSuccess requestedId commits w).1 = Val ()
    ∧ selectedSha (final (reconcile commits w)) = sha mostRecent
    ∧ toasts (final (reconcile commits w)) = toasts w ++ [not_found_message]
    ∧ carries (sha mostRecent) (location_search (final (reconcile commits w)))
    ∧ writes_during w (final (reconcile commits w)) ≠ []
    ∧ Forall (carries (sha mostRecent))
        (writes_during w (final (reconcile commits w))).
Proof.
  intros Hne Hr Hout Hw. subst requestedId.
  pose proof (onSuccess_returns (selectedSha w) commits w Hne) as Hret.
  by_pass commits w; try done.
  - exists c. split_and!; [done | done | done | done | | |].
    + apply carries_sha_only.
    + erewrite writes_during_app by reflexivity. discriminate.
    + erewrite writes_during_app by reflexivity.
      destruct (truthy (sha c)); repeat constructor; apply carries_sha_only.
  - exists c. split_and!; [done | done | done | done | | |].
    + apply carries_sha_only.
    + erewrite writes_during_app by reflexivity. discriminate.
    + erewrite writes_during_app by reflexivity.
      repeat constructor; apply carries_sha_only.
Qed.

Lemma reconcile_recovers_from_missing_request_witness :
  ∃ mostRecent,
    head [c1; c2; c3] = Some mostRecent
    ∧ (onSuccess "deadbeef" [c1; c2; c3] stale_world).1 = Val ()
    ∧ selectedSha (final (reconcile [c1; c2; c3] stale_world)) = sha mostRecent
    ∧ toasts (final (reconcile [c1; c2; c3] stale_world))
        = toasts stale_world ++ [not_found_message]
    ∧ carries (sha mostRecent)
        (location_search (final (reconcile [c1; c2; c3] stale_world)))
    ∧ writes_during stale_world (final (reconcile [c1; c2; c3] stale_world)) ≠ []
    ∧ Forall (carries (sha mostRecent))
        (writes_during stale_world (final (reconcile [c1; c2; c3] stale_world))).
Proof.
  apply (reconcile_recovers_from_missing_request [c1; c2; c3] "deadbeef" stale_world).
  - discriminate.
  - discriminate.
  - intros H. unfold identifiers in H. cbn in H.
    repeat (apply elem_of_cons in H; destruct H as [H|H]; [discriminate H|]).
    inversion H.
  - reflexivity.
Defined.

(** C7: for a non-empty commit list and a non-empty requested identifier
    that a commit of the list has, [onSuccess] returns, and the pass leaves
    the world as it was: the request stays selected and no warning is
    shown. *)
Theorem reconcile_honours_listed_request
    (commits : list Commit) (requestedId : string) (w : World) :
  commits ≠ [] →
  requestedId ≠ "" →
  requestedId ∈ identifiers commits →
  selectedSha w = requestedId →
  (onSuccess requestedId commits w).1 = Val ()
  ∧ selectedSha (final (reconcile commits w)) = requestedId
  ∧ toasts (final (reconcile commits w)) = toasts w.
Proof.
  intros Hne Hr Hin Hw. subst requestedId.
  split; [by apply onSuccess_returns|].
  by_pass commits w; done.
Qed.

Lemma reconcile_honours_listed_request_witness :
  (onSuccess "c2" [c1; c2; c3] (linked_world "c2")).1 = Val ()
  ∧ selectedSha (final (reconcile [c1; c2; c3] (linked_world "c2"))) = "c2"
  ∧ toasts (final (reconcile [c1; c2; c3] (linked_world "c2")))
    = toasts (linked_world "c2").
Proof.
  apply (reconcile_honours_listed_request [c1; c2; c3] "c2").
  - discriminate.
  - discriminate.
  - unfold identifiers. cbn. apply elem_of_cons. right. apply elem_of_cons. by left.
  - reflexivity.
Defined.

(** With at least two commits in the list, a first commit whose
    identifier is not empty, and nothing requested or selected, the pass
    returns, selects the first commit and writes it to the persisted
    state, once. *)
Lemma reconcile_defaults_with_two_commits
    (mostRecent second : Commit) (rest : list Commit) (w : World) :
  sha mostRecent ≠ "" →
  selectedSha w = "" →
  (reconcile (mostRecent :: second :: rest) w).1 = Val ()
  ∧ selectedSha (final (reconcile (mostRecent :: second :: rest) w))
    = sha mostRecent
  ∧ carries (sha mostRecent)
      (location_search (final (reconcile (mostRecent :: second :: rest) w)))
  ∧ writes_during w (final (reconcile (mostRecent :: second :: rest) w))
    = [location_search (final (reconcile (mostRecent :: second :: rest) w))].
Proof.
  intros Hid Hw. by_pass (mostRecent :: second :: rest) w; try done.
  - injection H as <- <- <-.
    split_and!; [done | done | apply carries_sha_key |].
    by apply writes_during_app.
  - injection H as <- <-. done.
Qed.

(** With a single commit in the list and nothing requested or selected,
    the pass selects the commit and then throws in the render, so that the
    persisted state is not written. *)
Lemma reconcile_defaults_with_single_commit (only : Commit) (w : World) :
  sha only ≠ "" →
  selectedSha w = "" →
  (reconcile [only] w).1 = Throw TypeError
  ∧ selectedSha (final (reconcile [only] w)) = sha only
  ∧ location_search (final (reconcile [only] w)) = location_search w
  ∧ writes_during w (final (reconcile [only] w)) = [].
Proof.
  intros Hid Hw. by_pass [only] w; try done.
  - injection H as <-. split_and!; try done. by apply writes_during_app, eq_sym, app_nil_r.
  - injection H as <- <-. done.
Qed.

(** C9, where the code departs from it: for the list of the single commit
    [c1], with nothing requested and nothing selected, the pass selects
    [c1], the render throws, and the persisted state is left without
    [sha]. *)
Theorem reconcile_single_commit_is_not_written :
  reconcile [c1] fresh_world
  = (Throw TypeError,
     {| selectedSha := sha c1; location_search := ∅;
        history_pushes := []; toasts := [] |})
  ∧ ¬ carries (sha c1) (location_search (final (reconcile [c1] fresh_world))).
Proof.
  split; [reflexivity|]. unfold carries. vm_compute. discriminate.
Qed.

(** ** Writes of the persisted state *)

(** C5, as the code has it: a pass that changes the selection writes the
    persisted state at most twice, each time with the new identifier: once
    from the effect on the cell, which runs if the render with the new
    selection returns, and, when the pass recovers from a request that the
    list does not have, once more from the recovery branch itself. There
    are two writes only in that recovery, and at least one when the pass
    returns. *)
Theorem reconcile_writes_per_change (commits : list Commit) (w : World) :
  selectedSha (final (reconcile commits w)) ≠ selectedSha w →
  Forall (carries (selectedSha (final (reconcile commits w))))
    (writes_during w (final (reconcile commits w)))
  ∧ (length (writes_during w (final (reconcile commits w))) ≤ 2)%nat
  ∧ (length (writes_during w (final (reconcile commits w))) = 2 →
     selectedSha w ≠ "" ∧ selectedSha w ∉ identifiers commits)
  ∧ ((reconcile commits w).1 = Val () →
     (1 ≤ length (writes_during w (final (reconcile commits w))))%nat).
Proof.
  by_pass commits w; intros Hchange; try done.
  - erewrite writes_during_app by reflexivity.
    destruct (truthy (sha c)); cbn; split_and!; try done; try lia;
      repeat constructor; apply carries_sha_only.
  - erewrite writes_during_app by reflexivity. cbn.
    split_and!; try done; try lia. repeat constructor; apply carries_sha_only.
  - erewrite writes_during_app by reflexivity. cbn.
    split_and!; try done; try lia. repeat constructor; apply carries_sha_key.
  - erewrite writes_during_app by (symmetry; apply app_nil_r). cbn.
    split_and!; try done; lia.
Qed.

Lemma reconcile_writes_per_change_witness :
  Forall (carries (selectedSha (final (reconcile [c1; c2; c3] stale_world))))
    (writes_during stale_world (final (reconcile [c1; c2; c3] stale_world)))
  ∧ (length (writes_during stale_world
               (final (reconcile [c1; c2; c3] stale_world))) ≤ 2)%nat
  ∧ (length (writes_during stale_world
               (final (reconcile [c1; c2; c3] stale_world))) = 2 →
     selectedSha stale_world ≠ ""
     ∧ selectedSha stale_world ∉ identifiers [c1; c2; c3])
  ∧ ((reconcile [c1; c2; c3] stale_world).1 = Val () →
     (1 ≤ length (writes_during stale_world
                    (final (reconcile [c1; c2; c3] stale_world))))%nat).
Proof.
  apply (reconcile_writes_per_change [c1; c2; c3] stale_world).
  vm_compute. discriminate.
Defined.

(** C5, as stated, fails: recovering from the request "deadbeef" changes
    the selection once and writes the new identifier twice. *)
Lemma recovery_writes_twice :
  selectedSha (final (reconcile [c1; c2; c3] stale_world))
    ≠ selectedSha stale_world
  ∧ Forall (carries (selectedSha (final (reconcile [c1; c2; c3] stale_world))))
      (writes_during stale_world (final (reconcile [c1; c2; c3] stale_world)))
  ∧ ¬ (length (writes_during stale_world
                 (final (reconcile [c1; c2; c3] stale_world))) ≤ 1)%nat.
Proof.
  split_and!.
  - vm_compute. discriminate.
  - repeat constructor; apply carries_sha_only.
  - vm_compute. lia.
Qed.

(** A pass leaves the world as it is where the list is empty, where the
    cell holds a listed identifier, and where it holds the first one. *)
Lemma reconcile_settled (commits : list Commit) (w : World) :
  commits = []
  ∨ (selectedSha w ≠ "" ∧ selectedSha w ∈ identifiers commits)
  ∨ (∃ c, head commits = Some c ∧ selectedSha w = sha c) →
  reconcile commits w = ((reconcile commits w).1, w).
Proof.
  by_pass commits w; intros Hs; try done.
  all: destruct Hs as [Hs|[[Hs Hin]|(c' & Hc & Hs)]]; try done.
  all: cbn in Hc; injection Hc as <-; exfalso.
  - apply H1. rewrite Hs. unfold identifiers. cbn. apply elem_of_cons. by left.
  - apply H1. rewrite Hs. unfold identifiers. cbn. apply elem_of_cons. by left.
  - apply H1. congruence.
  - apply H1. congruence.
Qed.

(** Every pass ends in such a world. *)
Lemma reconcile_settles (commits : list Commit) (w : World) :
  commits = []
  ∨ (selectedSha (final (reconcile commits w)) ≠ ""
     ∧ selectedSha (final (reconcile commits w)) ∈ identifiers commits)
  ∨ (∃ c, head commits = Some c
          ∧ selectedSha (final (reconcile commits w)) = sha c).
Proof.
  by_pass commits w.
  - by left.
  - right. by left.
  - right. right. by exists c.
  - right. right. by exists c.
  - right. right. by exists c.
  - right. right. by exists c.
  - right. right. exists c. split; [done | congruence].
Qed.

Lemma reconcile_writes_at_most_twice (commits : list Commit) (w : World) :
  (length (writes_during w (final (reconcile commits w))) ≤ 2)%nat
  ∧ (length (writes_during w (final (reconcile commits w))) = 2 →
     selectedSha w ≠ "" ∧ selectedSha w ∉ identifiers commits).
Proof.
  by_pass commits w; rewrite ?writes_during_same; cbn; try (split; [lia | done]).
  - erewrite writes_during_app by reflexivity.
    destruct (truthy (sha c)); cbn; (split; [lia | done]).
  - erewrite writes_during_app by reflexivity. cbn. split; [lia | done].
  - erewrite writes_during_app by reflexivity. cbn. split; [lia | done].
  - erewrite writes_during_app by (symmetry; apply app_nil_r). cbn.
    split; [lia | done].
Qed.

(** C6, as the code has it: a second pass with the same list changes
    nothing at all, so it selects what the first pass selected and writes
    nothing; the two passes together write the persisted state at most
    twice, and twice only when the first one recovers from a request that
    the list does not have. *)
Theorem reconcile_again_changes_nothing (commits : list Commit) (w : World) :
  reconcile_again commits w = final (reconcile commits w)
  ∧ selectedSha (reconcile_again commits w)
    = selectedSha (final (reconcile commits w))
  ∧ writes_during (final (reconcile commits w)) (reconcile_again commits w) = []
  ∧ (length (writes_during w (reconcile_again commits w)) ≤ 2)%nat
  ∧ (length (writes_during w (reconcile_again commits w)) = 2 →
     selectedSha w ≠ "" ∧ selectedSha w ∉ identifiers commits).
Proof.
  assert (reconcile_again commits w = final (reconcile commits w)) as ->.
  { unfold reconcile_again.
    by rewrite (reconcile_settled commits _ (reconcile_settles commits w)). }
  split_and!; [done | done | apply writes_during_same | |];
    apply reconcile_writes_at_most_twice.
Qed.

(** C6, as stated, fails: with the list [c1; c2] and the request "deadbeef"
    the two passes agree on the selection, and the persisted state has been
    written twice. *)
Lemma two_passes_write_twice :
  ¬ (selectedSha (reconcile_again [c1; c2] stale_world)
       = selectedSha (final (reconcile [c1; c2] stale_world))
     ∧ (length (writes_during stale_world
                  (reconcile_again [c1; c2] stale_world)) ≤ 1)%nat).
Proof. intros [_ H]. vm_compute in H. lia. Qed.

(** C10: the effect on the cell writes the persisted state only for a
    non-empty selection; the query it writes has the parameter [sha] with
    the selection and the parameter [key] as the current URL has it (none
    where the URL has none), and no other parameter; for the empty
    selection the effect does nothing. *)
Theorem selection_effect_writes_sha_and_key (selectedSha : string) (w : World) :
  (selectedSha ≠ "" →
     writes_during w (final (selectedShaEffect selectedSha w))
       = [location_search (final (selectedShaEffect selectedSha w))]
     ∧ location_search (final (selectedShaEffect selectedSha w)) !! "sha"
       = Some (QString selectedSha)
     ∧ location_search (final (selectedShaEffect selectedSha w)) !! "key"
       = location_search w !! "key"
     ∧ ∀ k, k ≠ "sha" → k ≠ "key" →
         location_search (final (selectedShaEffect selectedSha w)) !! k = None)
  ∧ (selectedSha = "" → selectedShaEffect selectedSha w = (Val (), w)).
Proof.
  unfold selectedShaEffect. split.
  - intros Hs. apply truthy_true in Hs. rewrite Hs.
    unfold mbind, M_bind, history_location_search, history_push. cbn.
    split_and!.
    + by apply writes_during_app.
    + apply lookup_insert_eq.
    + rewrite lookup_insert_ne by done.
      destruct (location_search w !! "key") as [v|]; [|done].
      by rewrite lookup_insert_eq.
    + intros k Hsha Hkey. rewrite lookup_insert_ne by done.
      destruct (location_search w !! "key") as [v|]; [|done].
      by rewrite lookup_insert_ne.
  - intros ->. reflexivity.
Qed.

(** ** The previous commit *)

Lemma findIndex_from_index_of (id : string) (commits : list Commit) (i : Z) :
  findIndex_from (λ d, String.eqb (sha d) id) commits i =
    match index_of commits id with
    | Some n => (i + Z.of_nat n)%Z
    | None => (-1)%Z
    end.
Proof.
  unfold index_of. revert i.
  induction commits as [|c cs IH]; intros i; [done|].
  cbn [findIndex_from list_find].
  destruct (String.eqb_spec (sha c) id) as [E|E].
  - rewrite decide_True by done. cbn. lia.
  - rewrite decide_False by done. rewrite IH.
    destruct (list_find _ cs) as [[n x]|]; cbn; lia.
Qed.

Lemma index_of_None (commits : list Commit) (id : string) :
  index_of commits id = None ↔ id ∉ identifiers commits.
Proof.
  unfold index_of, identifiers. rewrite fmap_None, list_find_None.
  rewrite Forall_forall, list_elem_of_fmap. split.
  - intros H (c & -> & Hc). by apply (H c).
  - intros H c Hc E. apply H. by exists c.
Qed.

(** What [selectedShaPrevious] computes, by the index of the selection. *)
Lemma selectedShaPrevious_by_index (commits : list Commit) (id : string) :
  selectedShaPrevious commits id =
    match index_of commits id with
    | Some i =>
        match commits !! (i + 1)%nat with
        | Some next => Val (Some (sha next))
        | None => Throw TypeError
        end
    | None => Val None
    end.
Proof.
  unfold selectedShaPrevious, findIndex.
  rewrite findIndex_from_index_of.
  destruct (index_of commits id) as [i|]; [|done].
  assert ((0 + Z.of_nat i =? -1)%Z = false) as -> by (apply Z.eqb_neq; lia).
  cbn [negb]. unfold array_get.
  assert ((0 + Z.of_nat i + 1 <? 0)%Z = false) as -> by (apply Z.ltb_ge; lia).
  replace (Z.to_nat (0 + Z.of_nat i + 1)) with (i + 1)%nat by lia.
  by destruct (commits !! (i + 1)%nat).
Qed.

(** On a list of distinct identifiers, asking for the commit before the
    last one throws. *)
Lemma selectedShaPrevious_of_last (commits : list Commit) (lastCommit : Commit) :
  NoDup (identifiers commits) →
  last commits = Some lastCommit →
  selectedShaPrevious commits (sha lastCommit) = Throw TypeError.
Proof.
  intros Hnd Hlast. apply last_Some in Hlast as [cs ->].
  rewrite selectedShaPrevious_by_index.
  assert (index_of (cs ++ [lastCommit]) (sha lastCommit) = Some (length cs)) as ->.
  { unfold index_of.
    assert (list_find (λ commit, sha commit = sha lastCommit) (cs ++ [lastCommit])
            = Some (length cs, lastCommit)) as ->; [|done].
    apply list_find_Some. split_and!.
    - by apply list_lookup_middle.
    - done.
    - intros j y Hj Hlt E.
      rewrite lookup_app_l in Hj by done.
      unfold identifiers in Hnd. rewrite fmap_app in Hnd.
      apply NoDup_app in Hnd as (_ & Hnd & _).
      apply (Hnd (sha y)).
      + apply list_elem_of_fmap_2. by eapply list_elem_of_lookup_2.
      + rewrite E. cbn. apply elem_of_cons. by left. }
  rewrite lookup_ge_None_2; [done|].
  rewrite length_app. cbn. lia.
Qed.

(** C2, at the inputs where the code departs from it: for the only commit
    of a list, and for the last of three, computing the previous commit
    throws instead of giving "undefined". *)
Theorem selectedShaPrevious_throws_on_last :
  selectedShaPrevious [c1] (sha c1) = Throw TypeError
  ∧ selectedShaPrevious [c1; c2; c3] (sha c3) = Throw TypeError.
Proof. split; reflexivity. Qed.

(** C8: when the selection is found in the list and a commit follows the
    place where it is found, the previous commit is the identifier of that
    next commit; when no commit of the list has the selection, it is
    "undefined". *)
Theorem selectedShaPrevious_is_next (commits : list Commit) (selectedId : string) :
  (∀ (i : nat) (next : Commit),
     index_of commits selectedId = Some i →
     commits !! (i + 1)%nat = Some next →
     selectedShaPrevious commits selectedId = Val (Some (sha next)))
  ∧ (selectedId ∉ identifiers commits →
     selectedShaPrevious commits selectedId = Val None).
Proof.
  rewrite selectedShaPrevious_by_index. split.
  - intros i next -> ->. reflexivity.
  - intros Hout. apply index_of_None in Hout. by rewrite Hout.
Qed.

Lemma selectedShaPrevious_is_next_witness :
  selectedShaPrevious [c1; c2; c3] "c2" = Val (Some (sha c3))
  ∧ selectedShaPrevious [c1; c2; c3] "deadbeef" = Val None.
Proof.
  split.
  - apply (proj1 (selectedShaPrevious_is_next [c1; c2; c3] "c2") 1%nat c3);
      reflexivity.
  - apply (proj2 (selectedShaPrevious_is_next [c1; c2; c3] "deadbeef")).
    intros H. unfold identifiers in H. cbn in H.
    repeat (apply elem_of_cons in H; destruct H as [H|H]; [discriminate H|]).
    inversion H.
Defined.

Lemma selection_effect_writes_sha_and_key_witness :
  location_search (final (selectedShaEffect "c2"
      {| selectedSha := "c2";
         location_search := {[ "sha" := QString "c1"; "key" := QString "rows";
                               "tab" := QString "raw" ]};
         history_pushes := []; toasts := [] |})) !! "key"
  = Some (QString "rows")
  ∧ location_search (final (selectedShaEffect "c2"
      {| selectedSha := "c2";
         location_search := {[ "sha" := QString "c1"; "key" := QString "rows";
                               "tab" := QString "raw" ]};
         history_pushes := []; toasts := [] |})) !! "tab"
  = None
  ∧ selectedShaEffect "" fresh_world = (Val (), fresh_world).
Proof.
  split_and!.
  - destruct (proj1 (selection_effect_writes_sha_and_key "c2"
      {| selectedSha := "c2";
         location_search := {[ "sha" := QString "c1"; "key" := QString "rows";
                               "tab" := QString "raw" ]};
         history_pushes := []; toasts := [] |})) as (_ & _ & Hkey & _);
      [discriminate|].
    rewrite Hkey. reflexivity.
  - apply (proj1 (selection_effect_writes_sha_and_key "c2" _));
      discriminate.
  - apply (proj2 (selection_effect_writes_sha_and_key "" fresh_world)).
    reflexivity.
Defined.

(** ** Picking a commit *)

Lemma rerender_run (commits : list Commit) (previous : string) (w : World) :
  rerender commits previous w =
    match selectedShaPrevious commits (selectedSha w) with
    | Val _ =>
        if String.eqb (selectedSha w) previous then (Val (), w)
        else selectedShaEffect (selectedSha w) w
    | Throw e => (Throw e, w)
    end.
Proof.
  unfold rerender, mbind, M_bind, getSelectedSha, lift.
  destruct (selectedShaPrevious commits (selectedSha w)); [|done].
  by destruct (String.eqb (selectedSha w) previous).
Qed.

Lemma onChange_current (commits : list Commit) (w : World) :
  onChange commits (selectedSha w) w = (Val (), w).
Proof.
  unfold onChange, mbind, M_bind, getSelectedSha, setSelectedSha.
  cbn [fst snd]. rewrite String.eqb_refl. cbn. by rewrite world_eta.
Qed.

(** The ways a pick goes: the selected item again, an item whose render
    throws, the empty item, and another item whose render returns. *)
Lemma onChange_cases (commits : list Commit) (item : string) (w : World) :
  (item = selectedSha w ∧ onChange commits item w = (Val (), w))
  ∨ (item ≠ selectedSha w
     ∧ render_returns commits item = false
     ∧ onChange commits item w =
         (Throw TypeError,
          {| selectedSha := item;
             location_search := location_search w;
             history_pushes := history_pushes w;
             toasts := toasts w |}))
  ∨ (item ≠ selectedSha w
     ∧ render_returns commits item = true
     ∧ item = ""
     ∧ onChange commits item w =
         (Val (),
          {| selectedSha := item;
             location_search := location_search w;
             history_pushes := history_pushes w;
             toasts := toasts w |}))
  ∨ (item ≠ selectedSha w
     ∧ render_returns commits item = true
     ∧ item ≠ ""
     ∧ onChange commits item w =
         (Val (),
          {| selectedSha := item;
             location_search :=
               qs_stringify [("sha", Some (QString item));
                             ("key", location_search w !! "key")];
             history_pushes :=
               history_pushes w
                 ++ [qs_stringify [("sha", Some (QString item));
                                   ("key", location_search w !! "key")]];
             toasts := toasts w |})).
Proof.
  destruct (decide (item = selectedSha w)) as [->|Hother].
  { left. split; [done | apply onChange_current]. }
  right.
  assert (onChange commits item w
          = rerender commits (selectedSha w)
              {| selectedSha := item;
                 location_search := location_search w;
                 history_pushes := history_pushes w;
                 toasts := toasts w |}) as ->.
  { unfold onChange, mbind, M_bind, getSelectedSha, setSelectedSha.
    cbn [fst snd].
    by rewrite (proj2 (String.eqb_neq item (selectedSha w)) Hother). }
  rewrite rerender_run. cbn [selectedSha]. unfold render_returns.
  rewrite (proj2 (String.eqb_neq item (selectedSha w)) Hother).
  destruct (selectedShaPrevious commits item) as [previousSha|[]].
  - right. unfold selectedShaEffect.
    destruct (decide (item = "")) as [->|Hitem].
    + left. by cbn.
    + right. by rewrite (proj2 (truthy_true item) Hitem).
  - by left.
Qed.

Lemma onChange_selects (commits : list Commit) (item : string) (w : World) :
  selectedSha (final (onChange commits item w)) = item.
Proof.
  destruct (onChange_cases commits item w)
    as [[-> ->]|[(_ & _ & ->)|[(_ & _ & _ & ->)|(_ & _ & _ & ->)]]]; done.
Qed.

Lemma lookup_sha_key_other (id k : string) (o : option qvalue) :
  k ≠ "sha" → k ≠ "key" →
  qs_stringify [("sha", Some (QString id)); ("key", o)] !! k = None.
Proof.
  intros Hsha Hkey. cbn. rewrite lookup_insert_ne by done.
  destruct o as [v|]; [|done]. by rewrite lookup_insert_ne.
Qed.

Lemma lookup_sha_key_key (id : string) (o : option qvalue) :
  qs_stringify [("sha", Some (QString id)); ("key", o)] !! "key" = o.
Proof.
  cbn. rewrite lookup_insert_ne by done.
  destruct o as [v|]; [|done]. by rewrite lookup_insert_eq.
Qed.

(** X1: picking a commit other than the selected one, where the render
    with the picked commit returns (a commit follows it in the list that is
    shown, or the list does not have it), selects it, shows no warning and
    writes the URL exactly once: the query written has the picked
    identifier for [sha], the parameter [key] as it was, and no other
    parameter. *)
Theorem onChange_writes_pick_once
    (commits : list Commit) (item : string) (w : World) :
  item ≠ "" →
  item ≠ selectedSha w →
  render_returns commits item = true →
  (onChange commits item w).1 = Val ()
  ∧ selectedSha (final (onChange commits item w)) = item
  ∧ toasts (final (onChange commits item w)) = toasts w
  ∧ writes_during w (final (onChange commits item w))
    = [location_search (final (onChange commits item w))]
  ∧ carries item (location_search (final (onChange commits item w)))
  ∧ location_search (final (onChange commits item w)) !! "key"
    = location_search w !! "key"
  ∧ ∀ k, k ≠ "sha" → k ≠ "key" →
      location_search (final (onChange commits item w)) !! k = None.
Proof.
  intros Hitem Hother Hrender.
  destruct (onChange_cases commits item w)
    as [[? _]|[(_ & Hthrown & _)|[(_ & _ & ? & _)|(_ & _ & _ & ->)]]];
    [done | congruence | done |].
  cbn [fst final snd]. split_and!; try done.
  - by apply writes_during_app.
  - apply carries_sha_key.
  - apply lookup_sha_key_key.
  - intros k. apply lookup_sha_key_other.
Qed.

Lemma onChange_writes_pick_once_witness :
  (onChange [c1; c2; c3] "c2" (linked_world "c1")).1 = Val ()
  ∧ selectedSha (final (onChange [c1; c2; c3] "c2" (linked_world "c1"))) = "c2"
  ∧ toasts (final (onChange [c1; c2; c3] "c2" (linked_world "c1")))
    = toasts (linked_world "c1")
  ∧ writes_during (linked_world "c1")
      (final (onChange [c1; c2; c3] "c2" (linked_world "c1")))
    = [location_search (final (onChange [c1; c2; c3] "c2" (linked_world "c1")))]
  ∧ carries "c2"
      (location_search (final (onChange [c1; c2; c3] "c2" (linked_world "c1"))))
  ∧ location_search (final (onChange [c1; c2; c3] "c2" (linked_world "c1"))) !! "key"
    = location_search (linked_world "c1") !! "key"
  ∧ ∀ k, k ≠ "sha" → k ≠ "key" →
      location_search (final (onChange [c1; c2; c3] "c2" (linked_world "c1"))) !! k
      = None.
Proof.
  apply (onChange_writes_pick_once [c1; c2; c3] "c2" (linked_world "c1"));
    [discriminate | discriminate | reflexivity].
Defined.

(** X2: picking is idempotent: picking the same item again changes nothing,
    neither the cell nor the URL, and pushes no history entry. *)
Theorem onChange_twice_as_once (commits : list Commit) (item : string) (w : World) :
  onChange commits item (final (onChange commits item w))
  = (Val (), final (onChange commits item w)).
Proof.
  generalize (onChange_selects commits item w).
  generalize (final (onChange commits item w)).
  intros w' <-. apply onChange_current.
Qed.

(** X3: a picked commit survives a reload: after a pick that returned, of a
    commit that the arriving list has and that is not its last one, a pass
    with that list returns and changes nothing. *)
Theorem reconcile_keeps_pick
    (shown commits : list Commit) (item : string) (w : World) :
  item ≠ "" →
  (onChange shown item w).1 = Val () →
  item ∈ identifiers commits →
  render_returns commits item = true →
  reconcile commits (final (onChange shown item w))
  = (Val (), final (onChange shown item w)).
Proof.
  intros Hitem _ Hin Hrender.
  pose proof (onChange_selects shown item w) as E.
  revert E. generalize (final (onChange shown item w)). intros w' E.
  by_pass commits w'; try done.
  - by inversion Hin.
  - unfold rendered. unfold render_returns in Hrender.
    by destruct (selectedShaPrevious commits (selectedSha w')).
Qed.

Lemma reconcile_keeps_pick_witness :
  reconcile [c1; c2; c3] (final (onChange [c1; c2; c3] "c2" (linked_world "c1")))
  = (Val (), final (onChange [c1; c2; c3] "c2" (linked_world "c1"))).
Proof.
  apply (reconcile_keeps_pick [c1; c2; c3] [c1; c2; c3] "c2" (linked_world "c1")).
  - discriminate.
  - reflexivity.
  - unfold identifiers. cbn. apply elem_of_cons; right. apply elem_of_cons. by left.
  - reflexivity.
Defined.

(** ** Invariants of a session *)

Lemma dom_sha_key (id : string) (o : option qvalue) :
  dom (qs_stringify [("sha", Some (QString id)); ("key", o)])
  ⊆ ({[ "sha"; "key" ]} : gset string).
Proof.
  cbn. rewrite dom_insert_L.
  destruct o as [v|]; [rewrite dom_insert_L|]; rewrite dom_empty_L;
    intros k; rewrite !elem_of_union, !elem_of_singleton, elem_of_empty; tauto.
Qed.

Lemma dom_sha_only (id : string) :
  dom (qs_stringify [("sha", Some (QString id))])
  ⊆ ({[ "sha"; "key" ]} : gset string).
Proof. apply (dom_sha_key id None). Qed.

Lemma mount_synced (search : query) (w : World) :
  mount search = Some w → synced w.
Proof.
  unfold mount. destruct (initialSelectedSha search) as [s|]; [|done].
  intros E. injection E as <-. unfold selectedShaEffect.
  destruct (truthy s) eqn:Hs.
  - intros _. cbn. split; [apply carries_sha_key | apply dom_sha_key].
  - apply truthy_false in Hs. by intros H.
Qed.

Lemma reconcile_synced (commits : list Commit) (w : World) :
  synced w →
  render_returns commits (selectedSha (final (reconcile commits w))) = true →
  synced (final (reconcile commits w)).
Proof.
  intros Hw. unfold render_returns. by_pass commits w; try done.
  - intros _ _. cbn. split; [apply carries_sha_only | apply dom_sha_only].
  - cbn. by rewrite selectedShaPrevious_first_single.
  - intros _ _. cbn. split; [apply carries_sha_key | apply dom_sha_key].
  - cbn. by rewrite selectedShaPrevious_first_single.
Qed.

Lemma onChange_synced (commits : list Commit) (item : string) (w : World) :
  synced w →
  render_returns commits (selectedSha (final (onChange commits item w))) = true →
  synced (final (onChange commits item w)).
Proof.
  intros Hw. rewrite onChange_selects.
  destruct (onChange_cases commits item w)
    as [[-> ->]|[(_ & Hthrown & _)|[(_ & _ & -> & ->)|(_ & _ & _ & ->)]]].
  - done.
  - congruence.
  - by intros _ H.
  - intros _ _. cbn. split; [apply carries_sha_key | apply dom_sha_key].
Qed.

Lemma handle_synced (page : Page) (e : event) :
  (mounted page = true → synced (world page)) →
  mounted (handle page e) = true → synced (world (handle page e)).
Proof.
  intros Hpage. unfold handle.
  destruct (mounted page) eqn:Hm; [|by rewrite Hm].
  destruct e as [commits|item]; cbn [mounted world].
  - by apply reconcile_synced, Hpage.
  - by apply onChange_synced, Hpage.
Qed.

Lemma visit_snoc (events : list event) (e : event) (w : World) :
  visit (events ++ [e]) w = handle (visit events w) e.
Proof. unfold visit. by rewrite foldl_app. Qed.

(** X4: from the first render on, through every sequence of arriving commit
    lists and picks after which the component is still mounted (no render
    has thrown), the URL agrees with the cell: whenever a commit is
    selected, the query has [sha] with the selection and, besides, at most
    [key]. *)
Theorem session_keeps_url_synced
    (search : query) (w : World) (events : list event) :
  mount search = Some w →
  mounted (visit events w) = true →
  synced (session events w).
Proof.
  intros Hmount. unfold session.
  induction events as [|e events IH] using rev_ind.
  - intros _. by apply (mount_synced search).
  - rewrite visit_snoc. by apply handle_synced.
Qed.

Lemma session_keeps_url_synced_witness :
  synced (session [CommitsLoaded [c1; c2; c3]; ShaPicked "c2";
                   CommitsLoaded [c1; c3]]
            stale_world).
Proof.
  apply (session_keeps_url_synced {[ "sha" := QString "deadbeef" ]}).
  - by apply mount_linked.
  - reflexivity.
Defined.

Lemma handle_key (page : Page) (e : event) :
  location_search (world (handle page e)) !! "key"
    = location_search (world page) !! "key"
  ∨ location_search (world (handle page e)) !! "key" = None.
Proof.
  unfold handle. destruct (mounted page); [|by left].
  destruct e as [commits|item]; cbn [world].
  - by_pass commits (world page); try (by left).
    + right. cbn. by rewrite lookup_insert_ne.
    + right. cbn. by rewrite lookup_insert_ne.
    + left. cbn [location_search]. apply lookup_sha_key_key.
  - destruct (onChange_cases (data page) item (world page))
      as [[_ ->]|[(_ & _ & ->)|[(_ & _ & _ & ->)|(_ & _ & _ & ->)]]];
      left; try done.
    apply lookup_sha_key_key.
Qed.

(** X5: the component never invents or alters the parameter [key]: after any
    sequence of events the URL has it as it was at the start, or not at
    all. *)
Theorem session_keeps_or_drops_key (events : list event) (w : World) :
  location_search (session events w) !! "key" = location_search w !! "key"
  ∨ location_search (session events w) !! "key" = None.
Proof.
  unfold session. induction events as [|e events IH] using rev_ind; [by left|].
  rewrite visit_snoc.
  destruct (handle_key (visit events w) e) as [E|E]; rewrite E; [done|].
  by right.
Qed.

Lemma handle_logs (page : Page) (e : event) :
  history_pushes (world page) `prefix_of` history_pushes (world (handle page e))
  ∧ ∃ warnings,
      toasts (world (handle page e)) = toasts (world page) ++ warnings
      ∧ Forall (λ msg, msg = not_found_message) warnings
      ∧ (length warnings ≤ loads [e])%nat.
Proof.
  assert (∀ w : World, ∃ warnings,
            toasts w = toasts w ++ warnings
            ∧ Forall (λ msg, msg = not_found_message) warnings
            ∧ (length warnings ≤ loads [e])%nat) as Hnone.
  { intros w. exists []. rewrite app_nil_r. repeat split; [done | cbn; lia]. }
  unfold handle. destruct (mounted page); [|by split].
  destruct e as [commits|item]; cbn [world].
  - by_pass commits (world page); try (by split).
    + split; [by eexists|]. exists [not_found_message]. by repeat constructor.
    + split; [by eexists|]. exists [not_found_message]. by repeat constructor.
    + split; [by eexists|]. apply (Hnone (world page)).
    + split; [done|]. apply (Hnone (world page)).
  - destruct (onChange_cases (data page) item (world page))
      as [[_ ->]|[(_ & _ & ->)|[(_ & _ & _ & ->)|(_ & _ & _ & ->)]]];
      (split; [by (done || eexists) | apply (Hnone (world page))]).
Qed.

Lemma loads_snoc (events : list event) (e : event) :
  loads (events ++ [e]) = (loads events + loads [e])%nat.
Proof.
  induction events as [|[commits|item] events IH]; cbn in *; lia.
Qed.

(** X6: the history and the warnings only grow: no event removes or rewrites
    an entry of the history or a warning, every warning is the one about
    the commit that could not be found, and there is at most one of them
    for each arrival of the commit list; picking never warns. *)
Theorem session_logs_only_grow (events : list event) (w : World) :
  history_pushes w `prefix_of` history_pushes (session events w)
  ∧ ∃ warnings,
      toasts (session events w) = toasts w ++ warnings
      ∧ Forall (λ msg, msg = not_found_message) warnings
      ∧ (length warnings ≤ loads events)%nat.
Proof.
  unfold session. induction events as [|e events IH] using rev_ind.
  - split; [done|]. exists []. by rewrite app_nil_r.
  - rewrite visit_snoc, loads_snoc.
    destruct IH as (Hpre & ws & Hws & Hall & Hlen).
    destruct (handle_logs (visit events w) e) as (Hpre' & ws' & Hws' & Hall' & Hlen').
    split; [by etrans|].
    exists (ws ++ ws'). split_and!.
    + by rewrite Hws', Hws, app_assoc.
    + by apply Forall_app.
    + rewrite length_app. lia.
Qed.

(** ** The first render and the URL *)

(** X7: what the first render does to the URL. Without a request (no [sha],
    [sha] without a value, or an empty one) nothing is selected, nothing is
    written and the URL stays as it is, with all of its parameters. With a
    request the cell holds it and the URL is rewritten once, to the request
    and the [key] it had. No warning is shown either way. *)
Theorem mount_rewrites_requested_url (search : query) (w : World) :
  mount search = Some w →
  toasts w = []
  ∧ ((selectedSha w = ""
      ∧ search !! "sha" ∈ [None; Some QNull; Some (QString "")]
      ∧ location_search w = search
      ∧ history_pushes w = [])
     ∨ (selectedSha w ≠ ""
        ∧ search !! "sha" = Some (QString (selectedSha w))
        ∧ history_pushes w = [location_search w]
        ∧ location_search w
          = qs_stringify [("sha", Some (QString (selectedSha w)));
                          ("key", search !! "key")])).
Proof.
  unfold mount, initialSelectedSha.
  destruct (search !! "sha") as [[s|l|]|] eqn:Hsha; [|done| |];
    intros E; injection E as <-.
  - unfold selectedShaEffect. destruct (truthy s) eqn:Hs.
    + split; [done|]. right. apply truthy_true in Hs. by cbn.
    + split; [done|]. left. apply truthy_false in Hs. subst s. cbn.
      split_and!; try done. repeat constructor.
  - split; [done|]. left. cbn. split_and!; try done. repeat constructor.
  - split; [done|]. left. cbn. split_and!; try done. repeat constructor.
Qed.

Lemma mount_rewrites_requested_url_witness :
  toasts (linked_world "c2") = []
  ∧ ((selectedSha (linked_world "c2") = ""
      ∧ ({[ "sha" := QString "c2" ]} : query) !! "sha"
          ∈ [None; Some QNull; Some (QString "")]
      ∧ location_search (linked_world "c2") = {[ "sha" := QString "c2" ]}
      ∧ history_pushes (linked_world "c2") = [])
     ∨ (selectedSha (linked_world "c2") ≠ ""
        ∧ ({[ "sha" := QString "c2" ]} : query) !! "sha"
          = Some (QString (selectedSha (linked_world "c2")))
        ∧ history_pushes (linked_world "c2")
          = [location_search (linked_world "c2")]
        ∧ location_search (linked_world "c2")
          = qs_stringify [("sha", Some (QString (selectedSha (linked_world "c2"))));
                          ("key", ({[ "sha" := QString "c2" ]} : query) !! "key")])).
Proof.
  apply (mount_rewrites_requested_url {[ "sha" := QString "c2" ]} (linked_world "c2")).
  by apply mount_linked.
Defined.

(** ** The URL after a recovery *)

(** X8: recovering from a request that the list does not have leaves the URL
    with the parameter [sha] of the first commit and nothing else: the
    parameter [key] of the stale link is dropped, and every write of the
    pass is that same query. *)
Theorem reconcile_recovery_drops_key
    (mostRecent : Commit) (rest : list Commit) (w : World) :
  selectedSha w ≠ "" →
  selectedSha w ∉ identifiers (mostRecent :: rest) →
  location_search (final (reconcile (mostRecent :: rest) w))
    = {[ "sha" := QString (sha mostRecent) ]}
  ∧ location_search (final (reconcile (mostRecent :: rest) w)) !! "key" = None
  ∧ Forall (λ q, q = {[ "sha" := QString (sha mostRecent) ]})
      (writes_during w (final (reconcile (mostRecent :: rest) w))).
Proof.
  intros Hsel Hout. by_pass (mostRecent :: rest) w; try done.
  - simplify_eq. cbn. rewrite insert_empty.
    split_and!; [done | by rewrite lookup_singleton_ne |].
    erewrite writes_during_app by reflexivity.
    destruct (truthy (sha _)); by repeat constructor.
  - simplify_eq. cbn. rewrite insert_empty.
    split_and!; [done | by rewrite lookup_singleton_ne |].
    erewrite writes_during_app by reflexivity. by repeat constructor.
Qed.

Lemma reconcile_recovery_drops_key_witness :
  location_search (final (reconcile [c1; c2]
      {| selectedSha := "deadbeef";
         location_search := {[ "sha" := QString "deadbeef"; "key" := QString "rows" ]};
         history_pushes := []; toasts := [] |}))
    = {[ "sha" := QString (sha c1) ]}
  ∧ location_search (final (reconcile [c1; c2]
      {| selectedSha := "deadbeef";
         location_search := {[ "sha" := QString "deadbeef"; "key" := QString "rows" ]};
         history_pushes := []; toasts := [] |})) !! "key" = None
  ∧ Forall (λ q, q = {[ "sha" := QString (sha c1) ]})
      (writes_during
         {| selectedSha := "deadbeef";
            location_search := {[ "sha" := QString "deadbeef"; "key" := QString "rows" ]};
            history_pushes := []; toasts := [] |}
         (final (reconcile [c1; c2]
            {| selectedSha := "deadbeef";
               location_search := {[ "sha" := QString "deadbeef"; "key" := QString "rows" ]};
               history_pushes := []; toasts := [] |}))).
Proof.
  apply (reconcile_recovery_drops_key c1 [c2]).
  - discriminate.
  - intros H. unfold identifiers in H. cbn in H.
    repeat (apply elem_of_cons in H; destruct H as [H|H]; [discriminate H|]).
    inversion H.
Defined.

(** ** The render *)

Lemma find_index_of (commits : list Commit) (id : string) :
  match index_of commits id with
  | Some i =>
      ∃ c, commits !! i = Some c ∧ sha c = id
           ∧ find (λ commit, String.eqb (sha commit) id) commits = Some c
  | None => find (λ commit, String.eqb (sha commit) id) commits = None
  end.
Proof.
  unfold index_of. induction commits as [|c cs IH]; [done|].
  cbn [list_find find].
  destruct (String.eqb_spec (sha c) id) as [E|E].
  - rewrite decide_True by done. cbn. by exists c.
  - rewrite decide_False by done.
    destruct (list_find _ cs) as [[n x]|]; cbn in *; done.
Qed.

Lemma index_of_first (c : Commit) (cs : list Commit) :
  index_of (c :: cs) (sha c) = Some 0%nat.
Proof. unfold index_of. cbn. by rewrite decide_True. Qed.

Section Render.

Context (L : Lib) (owner name yamlQueryStatus commitQueryStatus : string).

(** X9: the render throws exactly when the first commit of the list that has
    the selected identifier is the last commit of the list, whatever the
    two queries report and whatever the message parses to: the previous
    commit is computed in every render, shown or not. *)
Theorem render_throws_iff_selection_is_last
    (commits : list Commit) (selectedSha : string) :
  render L owner name yamlQueryStatus commitQueryStatus commits selectedSha
    = Throw TypeError
  ↔ ∃ i, index_of commits selectedSha = Some i ∧ S i = length commits.
Proof.
  unfold render. rewrite selectedShaPrevious_by_index.
  pose proof (find_index_of commits selectedSha) as Hfind.
  destruct (index_of commits selectedSha) as [i|]; cycle 1.
  { split; [discriminate|]. by intros (j & H & _). }
  destruct Hfind as (c & Hc & _). apply lookup_lt_Some in Hc.
  destruct (commits !! (i + 1)%nat) as [next|] eqn:Hnext.
  - apply lookup_lt_Some in Hnext. split; [discriminate|].
    intros (j & [= <-] & Hlen). lia.
  - apply lookup_ge_None in Hnext. split; [|done].
    intros _. exists i. split; [done | lia].
Qed.

(** X10: once the list of a repository with a single commit has arrived, the
    render throws: whatever was requested or selected before, the pass
    leaves that commit selected, and it is the last of the list. *)
Theorem render_throws_for_single_commit (only : Commit) (w : World) :
  render L owner name yamlQueryStatus commitQueryStatus [only]
    (selectedSha (final (reconcile [only] w)))
  = Throw TypeError.
Proof.
  apply render_throws_iff_selection_is_last. exists 0%nat. split; [|done].
  assert (selectedSha (final (reconcile [only] w)) = sha only) as ->.
  { by_pass [only] w; try done.
    - unfold identifiers in *. cbn in *.
      by apply list_elem_of_singleton in H1.
    - by simplify_eq.
    - by simplify_eq.
    - simplify_eq. congruence. }
  apply index_of_first.
Qed.

(** X11: with at least two commits in the list, after a pass that started with
    nothing selected or with a request that the list does not have, the
    render succeeds; the picker, where shown, has the selection among its
    items, and the viewer, where shown, gets the first commit as [sha] and
    [key] and the second one as [previousSha]. *)
Theorem render_after_selecting_most_recent
    (mostRecent second : Commit) (rest : list Commit) (w : World) :
  selectedSha w = "" ∨ selectedSha w ∉ identifiers (mostRecent :: second :: rest) →
  ∃ view,
    render L owner name yamlQueryStatus commitQueryStatus
      (mostRecent :: second :: rest)
      (selectedSha (final (reconcile (mostRecent :: second :: rest) w)))
    = Val view
    ∧ (∀ props, picker view = Some props →
         Picker.value props = sha mostRecent
         ∧ Picker.value props ∈ Picker.items props)
    ∧ (∀ props, jsonDetail view = Some props →
         JSONDetail.sha props = sha mostRecent
         ∧ JSONDetail.key props = sha mostRecent
         ∧ JSONDetail.previousSha props = Some (sha second)).
Proof.
  intros Hw.
  assert (selectedSha (final (reconcile (mostRecent :: second :: rest) w))
          = sha mostRecent) as ->.
  { by_pass (mostRecent :: second :: rest) w; try done.
    - by destruct Hw.
    - by simplify_eq.
    - by simplify_eq.
    - simplify_eq. congruence. }
  unfold render. rewrite selectedShaPrevious_by_index, index_of_first.
  cbn [lookup list_lookup Nat.add]. eexists. split; [reflexivity|].
  cbn [picker jsonDetail]. split.
  - intros props Hp. destruct (_ && _ && _); [|done].
    injection Hp as <-. cbn. split; [done|]. apply elem_of_cons. by left.
  - intros props Hp. destruct (_ && _); [|done].
    destruct (parsedCommit L _ _); [|done]. by injection Hp as <-.
Qed.

(** X12: the panels exclude each other: the error panel is shown without the
    commit area, the loading panel and the viewer; the loading panel
    without the viewer, the picker and the skeleton (which does not appear
    while the YAML query loads, even if the commit query loads too); the
    skeleton never together with the picker; the viewer only for a
    non-empty selection. *)
Theorem render_panels_are_exclusive
    (commits : list Commit) (selectedSha : string) (view : View) :
  render L owner name yamlQueryStatus commitQueryStatus commits selectedSha
    = Val view →
  (errorState view = true →
     skeleton view = false ∧ picker view = None
     ∧ loadingState view = false ∧ jsonDetail view = None)
  ∧ (loadingState view = true →
     skeleton view = false ∧ picker view = None ∧ jsonDetail view = None)
  ∧ (skeleton view = true → picker view = None)
  ∧ (is_Some (jsonDetail view) → selectedSha ≠ "").
Proof.
  unfold render. destruct (selectedShaPrevious commits selectedSha); [|done].
  intros [= <-]. cbn [errorState skeleton picker loadingState jsonDetail].
  destruct (String.eqb yamlQueryStatus "error") eqn:He;
    destruct (String.eqb yamlQueryStatus "loading") eqn:Hl;
    destruct (String.eqb yamlQueryStatus "success") eqn:Hs.
  all: try (apply String.eqb_eq in He).
  all: try (apply String.eqb_eq in Hl).
  all: try (apply String.eqb_eq in Hs).
  all: try (exfalso; congruence).
  all: cbn; split_and!; try done.
  - intros Hc. apply String.eqb_eq in Hc. by rewrite Hc.
  - destruct (truthy selectedSha) eqn:Ht; [|by intros [? ?]].
    intros _. by apply truthy_true.
Qed.

End Render.

Lemma render_after_selecting_most_recent_witness :
  ∃ view,
    render example_lib "githubocto" "flat-demo" "success" "success"
      [c1; c2; c3] (selectedSha (final (reconcile [c1; c2; c3] stale_world)))
    = Val view
    ∧ (∀ props, picker view = Some props →
         Picker.value props = sha c1
         ∧ Picker.value props ∈ Picker.items props)
    ∧ (∀ props, jsonDetail view = Some props →
         JSONDetail.sha props = sha c1
         ∧ JSONDetail.key props = sha c1
         ∧ JSONDetail.previousSha props = Some (sha c2)).
Proof.
  apply (render_after_selecting_most_recent example_lib "githubocto" "flat-demo"
           "success" "success" c1 c2 [c3] stale_world).
  right. intros H. unfold identifiers in H. cbn in H.
  repeat (apply elem_of_cons in H; destruct H as [H|H]; [discriminate H|]).
  inversion H.
Defined.

Lemma render_panels_are_exclusive_witness :
  ∃ view,
    render example_lib "githubocto" "flat-demo" "success" "loading" [] "c2"
    = Val view
    ∧ (errorState view = true →
         skeleton view = false ∧ picker view = None
         ∧ loadingState view = false ∧ jsonDetail view = None)
    ∧ (loadingState view = true →
         skeleton view = false ∧ picker view = None ∧ jsonDetail view = None)
    ∧ (skeleton view = true → picker view = None)
    ∧ (is_Some (jsonDetail view) → "c2" ≠ "").
Proof.
  eexists. split; [reflexivity|].
  apply (render_panels_are_exclusive example_lib "githubocto" "flat-demo"
           "success" "loading" [] "c2").
  reflexivity.
Defined.

(** ** The commit that is parsed and shown *)

(** X13: for a non-empty selection the message that is parsed is the message
    of the commit at [selectedShaIndex], the index that the previous commit
    is computed from, and [undefined] where that index is -1. *)
Theorem parsedCommit_reads_commit_at_selected_index
    (L : Lib) (commits : list Commit) (selectedSha : string) :
  selectedSha ≠ "" →
  parsedCommit L commits selectedSha
  = parseFlatCommitMessage L
      (message <$>
         array_get commits
           (findIndex (λ d, String.eqb (sha d) selectedSha) commits)).
Proof.
  intros Hsel. unfold parsedCommit, findIndex.
  apply truthy_true in Hsel. rewrite Hsel.
  rewrite findIndex_from_index_of.
  pose proof (find_index_of commits selectedSha) as Hfind.
  destruct (index_of commits selectedSha) as [i|].
  - destruct Hfind as (c & Hc & _ & ->). unfold array_get.
    assert ((0 + Z.of_nat i <? 0)%Z = false) as -> by (apply Z.ltb_ge; lia).
    replace (Z.to_nat (0 + Z.of_nat i)) with i by lia. by rewrite Hc.
  - by rewrite Hfind.
Qed.

Lemma parsedCommit_reads_commit_at_selected_index_witness :
  parsedCommit example_lib [c1; c2; c3] "c2"
  = parseFlatCommitMessage example_lib
      (message <$>
         array_get [c1; c2; c3]
           (findIndex (λ d, String.eqb (sha d) "c2") [c1; c2; c3])).
Proof.
  apply (parsedCommit_reads_commit_at_selected_index example_lib [c1; c2; c3] "c2").
  discriminate.
Defined.

(** X14: every item of the picker is looked up successfully by its renderers:
    for an identifier of the list, [commits.find] gives a commit of the
    list with that identifier, never [undefined]. *)
Theorem find_succeeds_for_picker_items (commits : list Commit) (item : string) :
  item ∈ identifiers commits →
  ∃ commit,
    find (λ commit, String.eqb (sha commit) item) commits = Some commit
    ∧ sha commit = item
    ∧ commit ∈ commits.
Proof.
  intros Hin. pose proof (find_index_of commits item) as Hfind.
  destruct (index_of commits item) as [i|] eqn:Hi.
  - destruct Hfind as (c & Hc & Hsha & Hf). exists c.
    split_and!; [done | done |]. by eapply list_elem_of_lookup_2.
  - by apply index_of_None in Hi.
Qed.

Lemma find_succeeds_for_picker_items_witness :
  ∃ commit,
    find (λ commit, String.eqb (sha commit) "c3") [c1; c2; c3] = Some commit
    ∧ sha commit = "c3"
    ∧ commit ∈ [c1; c2; c3].
Proof.
  apply (find_succeeds_for_picker_items [c1; c2; c3] "c3").
  unfold identifiers. cbn. do 2 (apply elem_of_cons; right).
  apply elem_of_cons. by left.
Defined.

(** ** Picking the last commit *)

(** X15: picking the last commit of a list of distinct identifiers, when
    another commit is selected, puts it into the cell and throws in the
    render: no history entry is pushed, the URL keeps what it had, and no
    warning is shown. *)
Theorem onChange_of_last_commit_throws
    (commits : list Commit) (lastCommit : Commit) (w : World) :
  NoDup (identifiers commits) →
  last commits = Some lastCommit →
  sha lastCommit ≠ selectedSha w →
  onChange commits (sha lastCommit) w
  = (Throw TypeError,
     {| selectedSha := sha lastCommit;
        location_search := location_search w;
        history_pushes := history_pushes w;
        toasts := toasts w |}).
Proof.
  intros Hnd Hlast Hother.
  pose proof (selectedShaPrevious_of_last commits lastCommit Hnd Hlast) as Hthrow.
  destruct (onChange_cases commits (sha lastCommit) w)
    as [[? _]|[(_ & _ & ->)|[(_ & Hr & _)|(_ & Hr & _)]]]; try done.
  all: unfold render_returns in Hr; by rewrite Hthrow in Hr.
Qed.

Lemma onChange_of_last_commit_throws_witness :
  onChange [c1; c2; c3] (sha c3) (linked_world "c1")
  = (Throw TypeError,
     {| selectedSha := sha c3;
        location_search := location_search (linked_world "c1");
        history_pushes := history_pushes (linked_world "c1");
        toasts := toasts (linked_world "c1") |}).
Proof.
  apply (onChange_of_last_commit_throws [c1; c2; c3] c3 (linked_world "c1")).
  - unfold identifiers. cbn. repeat constructor.
    + intros H. repeat (apply elem_of_cons in H; destruct H as [H|H]; [discriminate H|]).
      inversion H.
    + intros H. repeat (apply elem_of_cons in H; destruct H as [H|H]; [discriminate H|]).
      inversion H.
    + intros H. inversion H.
  - reflexivity.
  - discriminate.
Defined.

(** ** Opening a link *)

(** X16: opening a link to a commit of the list: the first render and the
    arrival of the list together leave the request selected, show no
    warning and push one history entry, whose query is the request and the
    [key] of the link. *)
Theorem link_to_listed_commit_is_opened_as_is
    (search : query) (requestedId : string) (commits : list Commit) (w : World) :
  search !! "sha" = Some (QString requestedId) →
  requestedId ≠ "" →
  requestedId ∈ identifiers commits →
  mount search = Some w →
  selectedSha (session [CommitsLoaded commits] w) = requestedId
  ∧ toasts (session [CommitsLoaded commits] w) = []
  ∧ history_pushes (session [CommitsLoaded commits] w)
    = [qs_stringify [("sha", Some (QString requestedId));
                     ("key", search !! "key")]]
  ∧ location_search (session [CommitsLoaded commits] w)
    = qs_stringify [("sha", Some (QString requestedId));
                    ("key", search !! "key")].
Proof.
  intros Hsha Hid Hin Hmount.
  unfold mount, initialSelectedSha in Hmount. rewrite Hsha in Hmount.
  unfold selectedShaEffect in Hmount.
  rewrite (proj2 (truthy_true requestedId) Hid) in Hmount.
  injection Hmount as <-.
  unfold session, visit. cbn [foldl handle mounted world data].
  rewrite reconcile_settled; [done|]. right. by left.
Qed.

Lemma link_to_listed_commit_is_opened_as_is_witness :
  selectedSha (session [CommitsLoaded [c1; c2; c3]] (linked_world "c2")) = "c2"
  ∧ toasts (session [CommitsLoaded [c1; c2; c3]] (linked_world "c2")) = []
  ∧ history_pushes (session [CommitsLoaded [c1; c2; c3]] (linked_world "c2"))
    = [qs_stringify [("sha", Some (QString "c2"));
                     ("key", ({[ "sha" := QString "c2" ]} : query) !! "key")]]
  ∧ location_search (session [CommitsLoaded [c1; c2; c3]] (linked_world "c2"))
    = qs_stringify [("sha", Some (QString "c2"));
                    ("key", ({[ "sha" := QString "c2" ]} : query) !! "key")].
Proof.
  apply (link_to_listed_commit_is_opened_as_is {[ "sha" := QString "c2" ]} "c2").
  - apply lookup_singleton_eq.
  - discriminate.
  - unfold identifiers. cbn. apply elem_of_cons. right. apply elem_of_cons. by left.
  - by apply mount_linked.
Defined.

End RepoDetail.
